(** * Route resolver: path composition and access levels

    A shallow embedding of [src/index.js] (the functions [_accessGranted],
    [_createRoute], [_findParent], [_getPath], [getAllPaths], [hasAccess]
    and [getUserPaths]) together with the properties the specification
    states about them, and further properties read off the code.

    Levels are JavaScript numbers holding integers; they are modelled as
    [Z].  Comparison and [Math.max] are exact on integers, so nothing is
    lost.  Strings are [string], and [===] on strings is [String.eqb]. *)

From Stdlib Require Import ZArith String List Lia Bool.
From stdpp Require Import base tactics option list strings.

Local Open Scope string_scope.
Local Open Scope Z_scope.

(** ** Outcomes of a JavaScript computation

    A call either completes normally, completes abruptly with the
    [TypeError] raised by destructuring [undefined], or is still running
    when the fuel given to the [while] loop is used up.

    Strings are unbounded here.  An engine ends a loop whose
    [absolutePath] outgrows its string limit with a [RangeError]; that
    completion is not modelled, so [OutOfFuel] at every fuel says that the
    call never returns a result, not that it runs for ever. *)

Inductive outcome (A : Type) : Type :=
| Returns (a : A)
| Throws
| OutOfFuel.

Arguments Returns {A} a.
Arguments Throws {A}.
Arguments OutOfFuel {A}.

Definition outcome_bind {A B} (f : A → outcome B) (m : outcome A) : outcome B :=
  match m with
  | Returns a => f a
  | Throws => Throws
  | OutOfFuel => OutOfFuel
  end.

#[global] Instance outcome_mret : MRet outcome := @Returns.
#[global] Instance outcome_mbind : MBind outcome := @outcome_bind.

(** ** The JavaScript values that occur *)

(** The [parent] field of a route: [null], absent ([undefined]) or a
    string. *)
Inductive parent_ref : Type :=
| PNull
| PUndefined
| PStr (s : string).

(** [ToBoolean]: [null], [undefined] and the empty string are falsy, every
    other string is truthy. *)
Definition truthy (p : parent_ref) : bool :=
  match p with
  | PNull | PUndefined => false
  | PStr s => negb (String.eqb s "")
  end.

(** [path === currentParent] with a string on the left. *)
Definition strict_eq (path : string) (p : parent_ref) : bool :=
  match p with
  | PStr s => String.eqb path s
  | PNull | PUndefined => false
  end.

(** What can be bound to [access] in [hasAccess]: a number, or
    [undefined]. *)
Inductive jsval : Type :=
| JUndefined
| JNum (n : Z).

(** Relational operators: [undefined] converts to [NaN], and every
    comparison with [NaN] is false. *)
Definition js_gt (a b : jsval) : bool :=
  match a, b with
  | JNum x, JNum y => x >? y
  | _, _ => false
  end.

Definition js_ge (a b : jsval) : bool :=
  match a, b with
  | JNum x, JNum y => x >=? y
  | _, _ => false
  end.

(** ** Array methods *)

(** [Array.prototype.find]: the first element satisfying the callback, or
    [undefined] ([None]). *)
Fixpoint array_find {A} (f : A → bool) (l : list A) : option A :=
  match l with
  | [] => None
  | x :: l' => if f x then Some x else array_find f l'
  end.

(** [Array.prototype.filter]. *)
Fixpoint array_filter {A} (f : A → bool) (l : list A) : list A :=
  match l with
  | [] => []
  | x :: l' => if f x then x :: array_filter f l' else array_filter f l'
  end.

(** [Array.prototype.map] with a callback that may not complete normally:
    elements are visited from the left and the first abrupt completion
    ends the call. *)
Fixpoint array_map {A B} (f : A → outcome B) (l : list A) : outcome (list B) :=
  match l with
  | [] => mret []
  | x :: l' => y ← f x; ys ← array_map f l'; mret (y :: ys)
  end.

(** ** Records *)

Module Route.
Record t : Type := mk { path : string; parent : parent_ref; level : Z }.
End Route.

Module Resolved.
Record t : Type := mk { absolutePath : string; access : Z }.
End Resolved.

Module User.
Record t : Type := mk { name : string; level : Z }.
End User.

(** ** The program *)

Definition _accessGranted (access : jsval) (level : Z) : bool :=
  js_gt access (JNum (-1)) && js_ge (JNum level) access.

Definition _createRoute (path absolutePath : string) : string :=
  if negb (String.eqb path "/") then path ++ absolutePath else absolutePath.

Definition _findParent (registry : list Route.t) (currentParent : parent_ref)
  : option Route.t :=
  array_find (λ r, strict_eq (Route.path r) currentParent) registry.

(** The [while] loop of [_getPath] on its three variables.  Destructuring
    the result of [_findParent] throws when it is [undefined]. *)
Fixpoint _getPath_loop (fuel : nat) (registry : list Route.t)
    (currentParent : parent_ref) (absolutePath : string) (access : Z)
  : outcome Resolved.t :=
  if truthy currentParent then
    match fuel with
    | O => OutOfFuel
    | S fuel' =>
        match _findParent registry currentParent with
        | None => Throws
        | Some p =>
            _getPath_loop fuel' registry (Route.parent p)
              (_createRoute (Route.path p) absolutePath)
              (Z.max access (Route.level p))
        end
    end
  else Returns (Resolved.mk absolutePath access).

Definition _getPath (fuel : nat) (parent : parent_ref) (path : string)
    (level : Z) (registry : list Route.t) : outcome Resolved.t :=
  _getPath_loop fuel registry parent path level.

Definition getAllPaths (fuel : nat) (registry : list Route.t)
  : outcome (list Resolved.t) :=
  array_map
    (λ r, _getPath fuel (Route.parent r) (Route.path r) (Route.level r) registry)
    registry.

(** The value of [paths.find(...) || -1]: a route object, or the number. *)
Inductive found : Type :=
| FoundRoute (r : Resolved.t)
| FoundNum (n : Z).

Definition or_default (o : option Resolved.t) (d : Z) : found :=
  match o with
  | Some r => FoundRoute r
  | None => FoundNum d
  end.

(** [{ access } = v]: the field of a route object; a number has no
    property [access], so the binding is [undefined]. *)
Definition get_access (v : found) : jsval :=
  match v with
  | FoundRoute r => JNum (Resolved.access r)
  | FoundNum _ => JUndefined
  end.

Definition hasAccess (user : User.t) (path : string) (paths : list Resolved.t)
  : bool :=
  let level := User.level user in
  let access :=
    get_access
      (or_default
         (array_find (λ r, String.eqb (Resolved.absolutePath r) path) paths)
         (-1)) in
  _accessGranted access level.

Definition getUserPaths (user : User.t) (paths : list Resolved.t)
  : list Resolved.t :=
  array_filter (λ r, hasAccess user (Resolved.absolutePath r) paths) paths.

(** ** The scenarios of the specification *)

Definition scenario2 : list Route.t :=
  [ Route.mk "/" PNull 0;
    Route.mk "/admin" (PStr "/") 5;
    Route.mk "/users" (PStr "/admin") 2 ].

Definition scenario2_resolved : list Resolved.t :=
  [ Resolved.mk "/" 0;
    Resolved.mk "/admin" 5;
    Resolved.mk "/admin/users" 5 ].

Definition bob : User.t := User.mk "bob" 3.

(** ** The specification's reading of the data model

    These definitions follow the words of the specification, not the code:
    a parent reference is either null/absent (a root) or names, by value,
    the [path] of a route of the registry. *)

Definition is_absent (c : parent_ref) : Prop := c = PNull ∨ c = PUndefined.

(** [spec_ancestors registry c anc]: starting from the reference [c], the
    parent chain is the finite list [anc], nearest ancestor first, and
    ends at a root. *)
Inductive spec_ancestors (registry : list Route.t)
  : parent_ref → list Route.t → Prop :=
| spec_ancestors_root c :
    is_absent c → spec_ancestors registry c []
| spec_ancestors_step s p anc :
    p ∈ registry →
    Route.path p = s →
    spec_ancestors registry (Route.parent p) anc →
    spec_ancestors registry (PStr s) (p :: anc).

(** [path] identifies a route of the registry. *)
Definition unique_paths (registry : list Route.t) : Prop :=
  ∀ p q, p ∈ registry → q ∈ registry → Route.path p = Route.path q → p = q.

(** Every chain is closed (each reference names a route) and finite. *)
Definition closed_acyclic (registry : list Route.t) : Prop :=
  ∀ r, r ∈ registry → ∃ anc, spec_ancestors registry (Route.parent r) anc.

Definition well_formed (registry : list Route.t) : Prop :=
  unique_paths registry ∧ closed_acyclic registry.

(** [m] is the maximum of the numbers in [l]. *)
Definition is_maximum (m : Z) (l : list Z) : Prop :=
  m ∈ l ∧ ∀ x, x ∈ l → (x ≤ m)%Z.

(** The resolved route [o] carries the maximum level over [r] and its
    ancestors. *)
Definition spec_resolves (registry : list Route.t) (r : Route.t)
    (o : Resolved.t) : Prop :=
  ∃ anc,
    spec_ancestors registry (Route.parent r) anc
    ∧ is_maximum (Resolved.access o) (Route.level r :: map Route.level anc).

(** The chain as the guard of the loop reads it: it also ends at a
    reference that is the empty string. *)
Definition ends_walk (c : parent_ref) : Prop := is_absent c ∨ c = PStr "".

Inductive walk_ancestors (registry : list Route.t)
  : parent_ref → list Route.t → Prop :=
| walk_ancestors_root c :
    ends_walk c → walk_ancestors registry c []
| walk_ancestors_step s p anc :
    s ≠ "" →
    p ∈ registry →
    Route.path p = s →
    walk_ancestors registry (Route.parent p) anc →
    walk_ancestors registry (PStr s) (p :: anc).

Definition walk_resolves (registry : list Route.t) (r : Route.t)
    (o : Resolved.t) : Prop :=
  ∃ anc,
    walk_ancestors registry (Route.parent r) anc
    ∧ is_maximum (Resolved.access o) (Route.level r :: map Route.level anc).

(** No parent reference of the registry is the empty string. *)
Definition no_empty_parent (registry : list Route.t) : Prop :=
  ∀ r, r ∈ registry → Route.parent r ≠ PStr "".

(** ** The walk as the code performs it *)

(** [walk_reaches registry c c']: the loop started with [currentParent = c]
    has [currentParent = c'] at the head of some later iteration. *)
Inductive walk_reaches (registry : list Route.t)
  : parent_ref → parent_ref → Prop :=
| walk_here c : walk_reaches registry c c
| walk_step c p c' :
    truthy c = true →
    _findParent registry c = Some p →
    walk_reaches registry (Route.parent p) c' →
    walk_reaches registry c c'.

(** What the loop accumulates over a chain of ancestors, nearest first. *)
Definition compose_path (anc : list Route.t) (abs : string) : string :=
  fold_left (λ a p, _createRoute (Route.path p) a) anc abs.

Definition compose_access (anc : list Route.t) (acc : Z) : Z :=
  fold_left (λ m p, Z.max m (Route.level p)) anc acc.

(** Two calls in sequence on the same registry. *)
Definition call_twice (fuel1 fuel2 : nat) (registry : list Route.t)
  : outcome (list Resolved.t * list Resolved.t) :=
  a ← getAllPaths fuel1 registry;
  b ← getAllPaths fuel2 registry;
  mret (a, b).

(** ** Registries with an empty-string reference *)

Definition empty_named : list Route.t :=
  [ Route.mk "" PNull 9;
    Route.mk "/a" (PStr "") 1 ].

Definition empty_named_resolved : list Resolved.t :=
  [ Resolved.mk "" 9;
    Resolved.mk "/a" 1 ].



Definition dangling : list Route.t :=
  [ Route.mk "/" PNull 0;
    Route.mk "/b" (PStr "/a") 2 ].

(** ** Further notions used by the properties below *)

(** One or more iterations of the loop lead from [c] to [c']. *)
Inductive walk_plus (registry : list Route.t)
  : parent_ref → parent_ref → Prop :=
| walk_plus_intro c p c' :
    truthy c = true →
    _findParent registry c = Some p →
    walk_reaches registry (Route.parent p) c' →
    walk_plus registry c c'.

(** [walk_finds registry c ps c']: started at [c], the loop finds the routes
    [ps], in this order, and is then at [c']. *)
Inductive walk_finds (registry : list Route.t)
  : parent_ref → list Route.t → parent_ref → Prop :=
| walk_finds_nil c : walk_finds registry c [] c
| walk_finds_cons c p ps c' :
    truthy c = true →
    _findParent registry c = Some p →
    walk_finds registry (Route.parent p) ps c' →
    walk_finds registry c (p :: ps) c'.

(** The loop ends at [c]: the guard fails, or the lookup does. *)
Definition stops (registry : list Route.t) (c : parent_ref) : Prop :=
  truthy c = false ∨ _findParent registry c = None.

(** Concatenation of a list of segments. *)
Definition join (l : list string) : string := foldr String.append "" l.

(** The segments a chain of ancestors (nearest first) contributes, root
    first: the paths other than ["/"]. *)
Definition segments (anc : list Route.t) : list string :=
  rev (filter (λ s, s ≠ "/") (map Route.path anc)).

(** [absolutePath] identifies a resolved route. *)
Definition unique_absolutePaths (paths : list Resolved.t) : Prop :=
  ∀ p q, p ∈ paths → q ∈ paths →
         Resolved.absolutePath p = Resolved.absolutePath q → p = q.

(** Two routes that name each other as parent. *)
Definition cyclic : list Route.t :=
  [ Route.mk "/a" (PStr "/b") 1;
    Route.mk "/b" (PStr "/a") 2 ].

(** * Properties *)

Example scenario2_runs : getAllPaths 2 scenario2 = Returns scenario2_resolved.
Proof. reflexivity. Qed.

Example scenario2_needs_two : getAllPaths 1 scenario2 = OutOfFuel.
Proof. reflexivity. Qed.

Example scenario3_bob :
  let bob := User.mk "bob" 3 in
  hasAccess bob "/admin" scenario2_resolved = false
  ∧ hasAccess bob "/" scenario2_resolved = true.
Proof. split; reflexivity. Qed.

Example scenario5 :
  getUserPaths (User.mk "a" 5) scenario2_resolved = scenario2_resolved
  ∧ getUserPaths (User.mk "b" 0) scenario2_resolved = [Resolved.mk "/" 0].
Proof. split; reflexivity. Qed.

(** ** Array methods *)

Section arrays.
Context {A : Type}.
Implicit Types (f : A → bool) (l : list A).

Lemma array_find_Some f l x :
  array_find f l = Some x → x ∈ l ∧ f x = true.
Proof.
  induction l as [|y l IH]; simpl; [done|].
  destruct (f y) eqn:Hy.
  - intros [= ->]. split; [left | done].
  - intros H. destruct (IH H). split; [by right | done].
Qed.

Lemma array_find_None f l :
  array_find f l = None ↔ ∀ x, x ∈ l → f x = false.
Proof.
  induction l as [|y l IH]; simpl.
  - split; [intros _ x Hx; inversion Hx | done].
  - destruct (f y) eqn:Hy.
    + split; [done|]. intros H. specialize (H y (list_elem_of_here _ _)).
      congruence.
    + rewrite IH. split.
      * intros H x Hx. inversion Hx; subst; auto.
      * intros H x Hx. apply H. by right.
Qed.

Lemma array_find_unique f l x :
  x ∈ l → f x = true → (∀ y, y ∈ l → f y = true → y = x) →
  array_find f l = Some x.
Proof.
  intros Hin Hx Huniq.
  destruct (array_find f l) as [y|] eqn:Hf.
  - apply array_find_Some in Hf as [Hy1 Hy2]. f_equal. by apply Huniq.
  - rewrite array_find_None in Hf. rewrite (Hf x Hin) in Hx. done.
Qed.

Lemma array_filter_spec f l :
  array_filter f l = filter (λ x, f x = true) l.
Proof.
  induction l as [|y l IH]; simpl; [done|].
  rewrite filter_cons. destruct (f y) eqn:Hy.
  - rewrite decide_True by done. by f_equal.
  - rewrite decide_False by congruence. done.
Qed.

Lemma array_filter_List_filter f l : array_filter f l = List.filter f l.
Proof.
  induction l as [|y l IH]; simpl; [done|]. destruct (f y); by f_equal.
Qed.
End arrays.

Section array_map.
Context {A B : Type}.
Implicit Types (f g : A → outcome B) (l : list A).

Lemma array_map_cons f x l :
  array_map f (x :: l) =
  match f x with
  | Returns y =>
      match array_map f l with
      | Returns ys => Returns (y :: ys)
      | Throws => Throws
      | OutOfFuel => OutOfFuel
      end
  | Throws => Throws
  | OutOfFuel => OutOfFuel
  end.
Proof. simpl. destruct (f x); [|done..]. simpl. by destruct (array_map f l). Qed.

(** A normal completion of [map] is made of normal completions of the
    callback, one per element and in order. *)
Lemma array_map_Returns_inv f l out :
  array_map f l = Returns out → Forall2 (λ x y, f x = Returns y) l out.
Proof.
  revert out. induction l as [|x l IH]; intros out.
  - intros [= <-]. constructor.
  - rewrite array_map_cons. destruct (f x) as [y| |] eqn:Hx; [|done..].
    destruct (array_map f l) as [ys| |]; [|done..].
    intros [= <-]. constructor; auto.
Qed.

Lemma array_map_Returns_intro f l out :
  Forall2 (λ x y, f x = Returns y) l out → array_map f l = Returns out.
Proof.
  intros H. induction H as [|x y l' out' Hx _ IH]; [done|].
  by rewrite array_map_cons, Hx, IH.
Qed.

Lemma array_map_Returns f l out :
  array_map f l = Returns out ↔ Forall2 (λ x y, f x = Returns y) l out.
Proof. split; [apply array_map_Returns_inv | apply array_map_Returns_intro]. Qed.

(** One element whose callback does not return keeps [map] from
    returning. *)
Lemma array_map_stuck f l x :
  x ∈ l → (∀ y, f x ≠ Returns y) → ∀ out, array_map f l ≠ Returns out.
Proof.
  intros Hin Hx out Hout. apply array_map_Returns_inv in Hout.
  apply list_elem_of_lookup in Hin as [i Hi].
  destruct (Forall2_lookup_l _ _ _ _ _ Hout Hi) as (y & _ & Hy).
  by apply (Hx y).
Qed.

(** The first element whose callback throws makes [map] throw. *)
Lemma array_map_Throws f l :
  (∀ x, x ∈ l → f x ≠ OutOfFuel) →
  (∃ x, x ∈ l ∧ f x = Throws) →
  array_map f l = Throws.
Proof.
  induction l as [|x l IH]; intros Hfuel (z & Hz & Hthrow).
  - inversion Hz.
  - rewrite array_map_cons.
    destruct (f x) as [y| |] eqn:Hx; [|done|].
    + rewrite IH; [done| |].
      * intros w Hw. apply Hfuel. by right.
      * exists z. split; [|done]. inversion Hz; subst; [congruence|done].
    + exfalso. apply (Hfuel x); [left | done].
Qed.
End array_map.

Lemma array_map_total {A B} (f : A → outcome B) (R : A → B → Prop) (l : list A) :
  (∀ x, x ∈ l → ∃ y, f x = Returns y ∧ R x y) →
  ∃ out, array_map f l = Returns out ∧ Forall2 R l out.
Proof.
  induction l as [|x l IH]; intros H.
  - exists []. split; [done | constructor].
  - destruct (H x (list_elem_of_here _ _)) as (y & Hy & HR).
    destruct IH as (ys & Hys & HRs); [intros z Hz; apply H; by right|].
    exists (y :: ys). split; [by rewrite array_map_cons, Hy, Hys | by constructor].
Qed.

Lemma array_map_ext_completed {A B} (f g : A → outcome B) (l : list A) :
  (∀ x, f x ≠ OutOfFuel → g x = f x) →
  array_map f l ≠ OutOfFuel →
  array_map g l = array_map f l.
Proof.
  intros Hfg. induction l as [|x l IH]; [done|].
  rewrite !array_map_cons.
  destruct (f x) as [y| |] eqn:Hx; [| |done].
  - rewrite Hfg, Hx by congruence.
    destruct (array_map f l) as [ys| |] eqn:Hl; [| |done].
    + rewrite IH by done. done.
    + rewrite IH by done. done.
  - rewrite Hfg, Hx by congruence. done.
Qed.

(** A property that holds from some fuel on for each element of a list
    holds from some fuel on for all of them at once. *)
Lemma eventually_forall {A} (P : nat → A → Prop) (l : list A) :
  (∀ x, x ∈ l → ∃ n, ∀ fuel, (n ≤ fuel)%nat → P fuel x) →
  ∃ n, ∀ fuel, (n ≤ fuel)%nat → ∀ x, x ∈ l → P fuel x.
Proof.
  induction l as [|y l IH]; intros H.
  - exists O. intros fuel _ x Hx. inversion Hx.
  - destruct (H y (list_elem_of_here _ _)) as [n Hn].
    destruct IH as [m Hm]; [intros x Hx; apply H; by right|].
    exists (Nat.max n m). intros fuel Hfuel x Hx.
    inversion Hx; subst; [apply Hn | apply Hm]; auto; lia.
Qed.

(** ** The loop of [_getPath] *)

Section loop.
Variable registry : list Route.t.
Implicit Types (c : parent_ref) (abs : string) (acc : Z) (fuel : nat).

Lemma truthy_false c : truthy c = false ↔ c = PNull ∨ c = PUndefined ∨ c = PStr "".
Proof.
  destruct c as [| |s]; simpl; [split; auto..|].
  rewrite negb_false_iff, String.eqb_eq. split.
  - intros ->. auto.
  - intros [|[|]]; congruence.
Qed.

Lemma truthy_true c : truthy c = true ↔ ∃ s, c = PStr s ∧ s ≠ "".
Proof.
  destruct c as [| |s]; simpl; [by split; [|intros (s & ? & _)]..|].
  rewrite negb_true_iff, String.eqb_neq. split.
  - intros H. by exists s.
  - intros (s' & [= ->] & H). done.
Qed.

Lemma loop_falsy fuel c abs acc :
  truthy c = false →
  _getPath_loop fuel registry c abs acc = Returns (Resolved.mk abs acc).
Proof. intros H. destruct fuel; simpl; by rewrite H. Qed.

Lemma loop_step fuel c p abs acc :
  truthy c = true →
  _findParent registry c = Some p →
  _getPath_loop (S fuel) registry c abs acc =
  _getPath_loop fuel registry (Route.parent p)
    (_createRoute (Route.path p) abs) (Z.max acc (Route.level p)).
Proof. intros Ht Hf. simpl. by rewrite Ht, Hf. Qed.

Lemma loop_missing fuel c abs acc :
  truthy c = true →
  _findParent registry c = None →
  _getPath_loop (S fuel) registry c abs acc = Throws.
Proof. intros Ht Hf. simpl. by rewrite Ht, Hf. Qed.

Lemma loop_no_fuel c abs acc :
  truthy c = true → _getPath_loop 0 registry c abs acc = OutOfFuel.
Proof. intros Ht. simpl. by rewrite Ht. Qed.

(** More fuel does not change a completed run. *)
Lemma loop_fuel_mono fuel fuel' c abs acc :
  (fuel ≤ fuel')%nat →
  _getPath_loop fuel registry c abs acc ≠ OutOfFuel →
  _getPath_loop fuel' registry c abs acc = _getPath_loop fuel registry c abs acc.
Proof.
  revert fuel' c abs acc.
  induction fuel as [|fuel IH]; intros fuel' c abs acc Hle Hrun.
  - destruct (truthy c) eqn:Ht.
    + by rewrite loop_no_fuel in Hrun.
    + by rewrite !loop_falsy.
  - destruct fuel' as [|fuel']; [lia|].
    simpl in *. destruct (truthy c); [|done].
    destruct (_findParent registry c) as [p|]; [|done].
    apply IH; [lia | done].
Qed.

(** Two completed runs agree, whatever fuel each was given. *)
Lemma loop_deterministic fuel1 fuel2 c abs acc :
  _getPath_loop fuel1 registry c abs acc ≠ OutOfFuel →
  _getPath_loop fuel2 registry c abs acc ≠ OutOfFuel →
  _getPath_loop fuel1 registry c abs acc = _getPath_loop fuel2 registry c abs acc.
Proof.
  intros H1 H2.
  rewrite <- (loop_fuel_mono fuel1 (Nat.max fuel1 fuel2)) by (lia || done).
  rewrite <- (loop_fuel_mono fuel2 (Nat.max fuel1 fuel2)) by (lia || done).
  done.
Qed.

Lemma findParent_Some c p :
  _findParent registry c = Some p → p ∈ registry ∧ c = PStr (Route.path p).
Proof.
  intros H. apply array_find_Some in H as [Hin Heq]. split; [done|].
  destruct c as [| |s]; simpl in Heq; [done..|].
  apply String.eqb_eq in Heq. by subst.
Qed.

Lemma findParent_None s :
  _findParent registry (PStr s) = None ↔ ∀ p, p ∈ registry → Route.path p ≠ s.
Proof.
  unfold _findParent. rewrite array_find_None. simpl.
  split; intros H p Hp; specialize (H p Hp); by apply String.eqb_neq.
Qed.

Lemma findParent_unique p :
  unique_paths registry → p ∈ registry →
  _findParent registry (PStr (Route.path p)) = Some p.
Proof.
  intros Huniq Hin. apply array_find_unique; [done|simpl; apply String.eqb_refl|].
  simpl. intros q Hq Heq. apply String.eqb_eq in Heq. by apply Huniq.
Qed.
End loop.

(** ** The walk against the specification's ancestor chain *)

Lemma compose_access_is_maximum anc acc seen :
  is_maximum acc seen →
  is_maximum (compose_access anc acc) (seen ++ map Route.level anc)%list.
Proof.
  revert acc seen. induction anc as [|p anc IH]; intros acc seen [Hin Hmax]; simpl.
  - rewrite app_nil_r. by split.
  - replace (seen ++ Route.level p :: map Route.level anc)%list
      with ((seen ++ [Route.level p]) ++ map Route.level anc)%list
      by (by rewrite <- app_assoc).
    apply IH. split.
    + apply elem_of_app.
      destruct (Z.max_spec acc (Route.level p)) as [[_ ->]|[_ ->]].
      * right. apply list_elem_of_singleton. done.
      * by left.
    + intros x Hx. apply elem_of_app in Hx as [Hx|Hx].
      * specialize (Hmax x Hx). lia.
      * apply list_elem_of_singleton in Hx. lia.
Qed.

Section resolution.
Variable registry : list Route.t.
Hypothesis Hunique : unique_paths registry.

(** A finite chain of the specification contains the chain the loop
    walks. *)
Lemma spec_ancestors_walk c anc :
  spec_ancestors registry c anc → ∃ anc', walk_ancestors registry c anc'.
Proof.
  induction 1 as [c Hc | s p anc Hin Hpath Hanc [anc' IH]].
  - exists []. constructor. by left.
  - destruct (decide (s = "")) as [-> | Hs].
    + exists []. constructor. by right.
    + exists (p :: anc'). by constructor.
Qed.

(** The loop visits exactly the chain, one iteration per ancestor. *)
Lemma loop_follows_walk_ancestors c anc :
  walk_ancestors registry c anc →
  ∀ k abs acc,
    _getPath_loop (length anc + k) registry c abs acc =
    Returns (Resolved.mk (compose_path anc abs) (compose_access anc acc)).
Proof.
  induction 1 as [c [[-> | ->] | ->] | s p anc Hs Hin Hpath Hanc IH];
    intros k abs acc; [by apply loop_falsy..|].
  simpl length. rewrite Nat.add_succ_l.
  rewrite (loop_step registry _ (PStr s) p).
  - apply IH.
  - apply truthy_true. by exists s.
  - subst s. by apply findParent_unique.
Qed.

Lemma getPath_resolves r :
  r ∈ registry →
  closed_acyclic registry →
  ∃ n, ∀ fuel, (n ≤ fuel)%nat →
    ∃ o, _getPath fuel (Route.parent r) (Route.path r) (Route.level r) registry
         = Returns o
         ∧ walk_resolves registry r o.
Proof.
  intros Hin Hclosed. destruct (Hclosed r Hin) as [anc0 Hanc0].
  destruct (spec_ancestors_walk _ _ Hanc0) as [anc Hanc].
  exists (length anc). intros fuel Hfuel.
  eexists. split.
  - unfold _getPath. replace fuel with (length anc + (fuel - length anc))%nat by lia.
    by apply loop_follows_walk_ancestors.
  - exists anc. split; [done|]. simpl.
    apply (compose_access_is_maximum anc _ [Route.level r]).
    split; [apply list_elem_of_singleton; done|].
    intros x Hx. apply list_elem_of_singleton in Hx. lia.
Qed.
End resolution.

(** ** Runs at different fuel *)

Lemma getAllPaths_fuel_mono fuel fuel' registry out :
  (fuel ≤ fuel')%nat →
  getAllPaths fuel registry = Returns out →
  getAllPaths fuel' registry = Returns out.
Proof.
  unfold getAllPaths. intros Hle. rewrite !array_map_Returns.
  intros Hruns. eapply Forall2_impl; [exact Hruns|].
  intros r o Hr. unfold _getPath in *.
  rewrite (loop_fuel_mono _ fuel fuel') by (done || congruence). done.
Qed.

(** ** A missing parent *)

Lemma walk_throws registry c s :
  walk_reaches registry c (PStr s) →
  s ≠ "" →
  _findParent registry (PStr s) = None →
  ∃ n, ∀ fuel, (n ≤ fuel)%nat → ∀ abs acc,
    _getPath_loop fuel registry c abs acc = Throws.
Proof.
  intros Hwalk Hs Hnone.
  remember (PStr s) as tgt eqn:Htgt.
  induction Hwalk as [c | c p c' Ht Hf Hwalk IH]; subst.
  - exists 1%nat. intros fuel Hfuel abs acc.
    destruct fuel as [|fuel]; [lia|].
    apply loop_missing; [|done]. apply truthy_true. by exists s.
  - destruct (IH eq_refl Hnone) as [n Hn].
    exists (S n). intros fuel Hfuel abs acc.
    destruct fuel as [|fuel]; [lia|].
    rewrite (loop_step registry fuel c p) by done. apply Hn. lia.
Qed.

(** ** Access decisions *)

Lemma accessGranted_undefined level : _accessGranted JUndefined level = false.
Proof. reflexivity. Qed.

Lemma accessGranted_num access level :
  _accessGranted (JNum access) level = (access >? -1) && (level >=? access).
Proof. reflexivity. Qed.

(** What [hasAccess] passes to [_accessGranted]. *)
Lemma hasAccess_found user path paths r :
  array_find (λ r, String.eqb (Resolved.absolutePath r) path) paths = Some r →
  hasAccess user path paths
  = _accessGranted (JNum (Resolved.access r)) (User.level user).
Proof. intros H. unfold hasAccess. by rewrite H. Qed.

Lemma hasAccess_not_found user path paths :
  array_find (λ r, String.eqb (Resolved.absolutePath r) path) paths = None →
  hasAccess user path paths = _accessGranted JUndefined (User.level user).
Proof. intros H. unfold hasAccess. by rewrite H. Qed.

(** C4.  [_accessGranted access level] is true exactly when
    [access > -1] and [level >= access]; hence an access of [-1] or below
    grants nothing, whatever the level. *)
Theorem accessGranted_iff (access level : Z) :
  (_accessGranted (JNum access) level = true ↔ access > -1 ∧ level >= access)
  ∧ (access ≤ -1 → ∀ level', _accessGranted (JNum access) level' = false).
Proof.
  split.
  - rewrite accessGranted_num, andb_true_iff. unfold Z.gtb, Z.geb, Z.gt, Z.ge.
    destruct (access ?= -1), (level ?= access); intuition congruence.
  - intros Hle level'. rewrite accessGranted_num.
    replace (access >? -1) with false; [done|].
    symmetry. rewrite Z.gtb_ltb. apply Z.ltb_ge. lia.
Qed.

Lemma accessGranted_iff_witness :
  _accessGranted (JNum 3) 5 = true ∧ _accessGranted (JNum (-1)) 1000000 = false.
Proof.
  split.
  - apply (proj1 (accessGranted_iff 3 5)). lia.
  - apply (proj2 (accessGranted_iff (-1) 0)). lia.
Defined.

(** C3.  When [path] is the [absolutePath] of no route of the resolved
    sequence, [hasAccess] returns false for every user, exactly as for a
    route with the sentinel access [-1].  [hasAccess] is a total function
    to [bool]: there is no abrupt completion. *)
Theorem hasAccess_unknown_path (user : User.t) (path : string)
    (resolved : list Resolved.t) :
  (∀ r, r ∈ resolved → Resolved.absolutePath r ≠ path) →
  hasAccess user path resolved = false
  ∧ hasAccess user path resolved = _accessGranted (JNum (-1)) (User.level user).
Proof.
  intros Hmiss.
  assert (array_find (λ r, String.eqb (Resolved.absolutePath r) path) resolved
          = None) as Hnone.
  { apply array_find_None. intros r Hr. apply String.eqb_neq. by apply Hmiss. }
  rewrite (hasAccess_not_found _ _ _ Hnone). split; [done|].
  rewrite accessGranted_undefined, accessGranted_num. done.
Qed.

Lemma hasAccess_unknown_path_witness :
  hasAccess (User.mk "root" 1000000) "/missing" scenario2_resolved = false.
Proof.
  apply (hasAccess_unknown_path (User.mk "root" 1000000) "/missing"
           scenario2_resolved).
  intros r Hr. unfold scenario2_resolved in Hr.
  repeat (apply elem_of_cons in Hr as [-> | Hr]; [simpl; congruence|]).
  inversion Hr.
Defined.

(** C5.  [hasAccess] is monotone in the user's level: with the path and the
    resolved sequence fixed, a user whose level is at least that of a user
    who has access has access too. *)
Theorem hasAccess_monotone (u1 u2 : User.t) (path : string)
    (resolved : list Resolved.t) :
  User.level u1 ≤ User.level u2 →
  hasAccess u1 path resolved = true →
  hasAccess u2 path resolved = true.
Proof.
  intros Hle.
  destruct (array_find (λ r, String.eqb (Resolved.absolutePath r) path) resolved)
    as [r|] eqn:Hfind.
  - rewrite !(hasAccess_found _ _ _ _ Hfind), !accessGranted_num.
    rewrite !andb_true_iff. intros [Hgt Hge]. split; [done|].
    rewrite Z.geb_leb in *. apply Z.leb_le. apply Z.leb_le in Hge. lia.
  - rewrite !(hasAccess_not_found _ _ _ Hfind), !accessGranted_undefined. done.
Qed.

Lemma hasAccess_monotone_witness :
  hasAccess (User.mk "carol" 7) "/admin" scenario2_resolved = true.
Proof.
  apply (hasAccess_monotone (User.mk "dave" 5) (User.mk "carol" 7) "/admin"
           scenario2_resolved).
  - simpl. lia.
  - reflexivity.
Defined.

(** C10.  [hasAccess] and [getUserPaths] read only the [level] of the
    user: two users of equal level get the same answers, whatever their
    names. *)
Theorem user_level_only (u1 u2 : User.t) (path : string)
    (resolved : list Resolved.t) :
  User.level u1 = User.level u2 →
  hasAccess u1 path resolved = hasAccess u2 path resolved
  ∧ getUserPaths u1 resolved = getUserPaths u2 resolved.
Proof.
  intros Heq.
  assert (∀ p l, hasAccess u1 p l = hasAccess u2 p l) as Hsame.
  { intros p l. unfold hasAccess. by rewrite Heq. }
  split; [apply Hsame|].
  unfold getUserPaths. generalize resolved at 1 3.
  induction resolved as [|r l IH]; intros whole; simpl; [done|].
  rewrite Hsame, IH. done.
Qed.

Lemma user_level_only_witness :
  hasAccess (User.mk "alice" 3) "/admin" scenario2_resolved
  = hasAccess bob "/admin" scenario2_resolved
  ∧ getUserPaths (User.mk "alice" 3) scenario2_resolved
    = getUserPaths bob scenario2_resolved.
Proof.
  apply (user_level_only (User.mk "alice" 3) bob "/admin" scenario2_resolved).
  reflexivity.
Defined.

(** C6.  [getUserPaths user resolved] is the filter of [resolved] by
    [hasAccess user r.absolutePath resolved]: a subsequence in the order of
    the input, holding exactly the routes that pass the check. *)
Theorem getUserPaths_filter (user : User.t) (resolved : list Resolved.t) :
  getUserPaths user resolved
  = filter (λ r, hasAccess user (Resolved.absolutePath r) resolved = true)
      resolved
  ∧ sublist (getUserPaths user resolved) resolved
  ∧ ∀ r, r ∈ getUserPaths user resolved
         ↔ r ∈ resolved
           ∧ hasAccess user (Resolved.absolutePath r) resolved = true.
Proof.
  unfold getUserPaths. rewrite array_filter_spec. split; [done|]. split.
  - apply sublist_filter.
  - intros r. rewrite list_elem_of_filter. tauto.
Qed.

(** ** Whole-registry runs *)

Lemma getAllPaths_fuel_mono_completed fuel fuel' registry :
  (fuel ≤ fuel')%nat →
  getAllPaths fuel registry ≠ OutOfFuel →
  getAllPaths fuel' registry = getAllPaths fuel registry.
Proof.
  intros Hle. unfold getAllPaths. apply array_map_ext_completed.
  intros r Hr. unfold _getPath in *. by apply loop_fuel_mono.
Qed.

Ltac elem_cases H :=
  repeat (apply elem_of_cons in H as [H | H]; [subst|]);
  try (by inversion H).

Lemma scenario2_well_formed : well_formed scenario2.
Proof.
  split.
  - intros p q Hp Hq Heq. unfold scenario2 in *.
    elem_cases Hp; elem_cases Hq; done.
  - intros r Hr.
    assert (spec_ancestors scenario2 PNull []) as H0
      by (constructor; by left).
    assert (spec_ancestors scenario2 (PStr "/") [Route.mk "/" PNull 0]) as H1.
    { apply spec_ancestors_step; [|done|done]. unfold scenario2. left. }
    assert (spec_ancestors scenario2 (PStr "/admin")
              [Route.mk "/admin" (PStr "/") 5; Route.mk "/" PNull 0]) as H2.
    { apply spec_ancestors_step; [|done|done]. unfold scenario2. right. left. }
    unfold scenario2 in Hr. elem_cases Hr; simpl; eauto.
Qed.

(** What the loop computes on a well-formed acyclic registry: one resolved
    route per route, in order, each with the maximum of the levels along
    the chain as the guard of the loop reads it. *)
Lemma getAllPaths_resolves_walk (registry : list Route.t) :
  well_formed registry →
  ∃ n, ∀ fuel, (n ≤ fuel)%nat →
    ∃ out,
      getAllPaths fuel registry = Returns out
      ∧ length out = length registry
      ∧ Forall2 (walk_resolves registry) registry out.
Proof.
  intros [Hunique Hclosed].
  destruct (eventually_forall
    (λ fuel r, ∃ o,
       _getPath fuel (Route.parent r) (Route.path r) (Route.level r) registry
       = Returns o ∧ walk_resolves registry r o) registry) as [n Hn].
  { intros r Hr. by apply getPath_resolves. }
  exists n. intros fuel Hfuel.
  destruct (array_map_total
    (λ r, _getPath fuel (Route.parent r) (Route.path r) (Route.level r) registry)
    (walk_resolves registry) registry (Hn fuel Hfuel)) as (out & Hout & Hall).
  exists out. split; [done|]. split; [|done].
  symmetry. by eapply Forall2_length.
Qed.

(** C1.  The code at a registry on which it misses the claim: [empty_named]
    is well formed and acyclic, its second route has the first (level 9) as
    parent, and [getAllPaths] gives it access 1, not the maximum 9 over the
    route and its ancestors.  The guard [while (currentParent)] takes the
    reference [""] for no reference, although [_getPath] is documented to
    save the highest level of the chain. *)
Lemma getAllPaths_empty_named :
  well_formed empty_named
  ∧ (∀ fuel, getAllPaths fuel empty_named = Returns empty_named_resolved)
  ∧ ¬ Forall2 (spec_resolves empty_named) empty_named empty_named_resolved.
Proof.
  split; [|split].
  - split.
    + intros p q Hp Hq Heq. unfold empty_named in *.
      elem_cases Hp; elem_cases Hq; done.
    + intros r Hr.
      assert (spec_ancestors empty_named PNull []) as H0
        by (constructor; by left).
      assert (spec_ancestors empty_named (PStr "") [Route.mk "" PNull 9]) as H1.
      { apply spec_ancestors_step; [|done|done]. unfold empty_named. left. }
      unfold empty_named in Hr. elem_cases Hr; simpl; eauto.
  - intros fuel. by destruct fuel.
  - unfold empty_named, empty_named_resolved. intros H.
    apply Forall2_cons in H as [_ H]. apply Forall2_cons in H as [H _].
    destruct H as (anc & Hanc & _ & Hmax). simpl in *.
    inversion Hanc as [c [Hc|Hc] | s p anc' Hp Hpath Hrest]; subst; [done..|].
    unfold empty_named in Hp. elem_cases Hp; [|done].
    specialize (Hmax 9). simpl in Hmax.
    assert (9 ≤ 1); [|lia]. apply Hmax. right. left.
Qed.

(** ** Composition of the absolute path *)

Lemma createRoute_spec path abs :
  _createRoute path abs = if decide (path = "/") then abs else (path ++ abs)%string.
Proof.
  unfold _createRoute.
  destruct (String.eqb_spec path "/"), (decide (path = "/")); simpl; congruence.
Qed.

(** C2.  Each iteration of the walk prepends the path of the ancestor it
    found to the accumulated absolute path, unless that path is ["/"], which
    leaves it unchanged; on the registry of Scenario 2 the route ["/users"]
    resolves to ["/admin/users"] with access 5. *)
Theorem createRoute_prepends :
  (∀ path abs,
     _createRoute path abs
     = if decide (path = "/") then abs else (path ++ abs)%string)
  ∧ (∀ fuel registry c p abs acc,
       truthy c = true →
       _findParent registry c = Some p →
       _getPath_loop (S fuel) registry c abs acc
       = _getPath_loop fuel registry (Route.parent p)
           (if decide (Route.path p = "/") then abs
            else (Route.path p ++ abs)%string)
           (Z.max acc (Route.level p)))
  ∧ (∀ k, _getPath (2 + k) (PStr "/admin") "/users" 2 scenario2
          = Returns (Resolved.mk "/admin/users" 5))
  ∧ (∀ k, getAllPaths (2 + k) scenario2 = Returns scenario2_resolved)
  ∧ scenario2_resolved !! 2%nat = Some (Resolved.mk "/admin/users" 5).
Proof.
  split; [apply createRoute_spec|]. split; [|split; [|split]].
  - intros fuel registry c p abs acc Ht Hf.
    rewrite <- createRoute_spec. by apply loop_step.
  - intros k. unfold _getPath.
    rewrite (loop_fuel_mono scenario2 2 (2 + k)); [reflexivity | lia | done].
  - intros k. apply (getAllPaths_fuel_mono 2); [lia | reflexivity].
  - reflexivity.
Qed.

Lemma createRoute_prepends_witness :
  _getPath_loop 2 scenario2 (PStr "/admin") "/users" 2
  = _getPath_loop 1 scenario2 (PStr "/") "/admin/users" 5.
Proof.
  apply (proj1 (proj2 createRoute_prepends) 1%nat scenario2 (PStr "/admin")
           (Route.mk "/admin" (PStr "/") 5) "/users" 2); reflexivity.
Defined.

(** ** Repeated calls *)

(** C7.  [getAllPaths] is deterministic: two calls on the same registry
    that complete do so with the same outcome, and when both return the
    two results are equal (equality of values, that is, deep equality of
    the arrays built); a second call returns whenever the first did. *)
Theorem getAllPaths_idempotent (registry : list Route.t) (fuel1 fuel2 : nat) :
  getAllPaths fuel1 registry ≠ OutOfFuel →
  getAllPaths fuel2 registry ≠ OutOfFuel →
  getAllPaths fuel1 registry = getAllPaths fuel2 registry
  ∧ (∀ a b, call_twice fuel1 fuel2 registry = Returns (a, b) → a = b)
  ∧ (∀ a, getAllPaths fuel1 registry = Returns a →
          call_twice fuel1 fuel2 registry = Returns (a, a)).
Proof.
  intros H1 H2.
  assert (getAllPaths fuel1 registry = getAllPaths fuel2 registry) as Heq.
  { rewrite <- (getAllPaths_fuel_mono_completed fuel1 (Nat.max fuel1 fuel2))
      by (lia || done).
    rewrite <- (getAllPaths_fuel_mono_completed fuel2 (Nat.max fuel1 fuel2))
      by (lia || done).
    done. }
  split; [done|]. unfold call_twice. rewrite <- Heq. split.
  - intros a b. destruct (getAllPaths fuel1 registry) as [x| |]; cbn;
      unfold mret, outcome_mret; congruence.
  - intros a ->. done.
Qed.

Lemma getAllPaths_idempotent_witness :
  getAllPaths 2 scenario2 = getAllPaths 5 scenario2
  ∧ (∀ a b, call_twice 2 5 scenario2 = Returns (a, b) → a = b)
  ∧ (∀ a, getAllPaths 2 scenario2 = Returns a →
          call_twice 2 5 scenario2 = Returns (a, a)).
Proof.
  apply (getAllPaths_idempotent scenario2 2 5).
  - vm_compute. discriminate.
  - vm_compute. discriminate.
Defined.

(** ** Malformed registries *)

Lemma array_map_Throws_at {A B} (f : A → outcome B) (pre post : list A) (x : A) :
  (∀ y, y ∈ pre → f y ≠ OutOfFuel) →
  f x = Throws →
  array_map f (pre ++ x :: post) = Throws.
Proof.
  intros Hpre Hx. induction pre as [|y pre IH]; simpl app.
  - by rewrite array_map_cons, Hx.
  - rewrite array_map_cons. destruct (f y) as [b| |] eqn:Hy; [|done|].
    + rewrite IH; [done|]. intros z Hz. apply Hpre. by right.
    + exfalso. apply (Hpre y); [left | done].
Qed.

Lemma getPath_completes_from fuel r registry :
  _getPath fuel (Route.parent r) (Route.path r) (Route.level r) registry
    ≠ OutOfFuel →
  ∀ fuel', (fuel ≤ fuel')%nat →
    _getPath fuel' (Route.parent r) (Route.path r) (Route.level r) registry
      ≠ OutOfFuel.
Proof.
  intros Hrun fuel' Hle. unfold _getPath in *.
  by rewrite (loop_fuel_mono registry fuel fuel').
Qed.

(** X16.  When the walk of a route of the registry reaches a reference
    that is a non-empty string and the path of no route, the resolution of
    that route throws, [getAllPaths] never returns normally, and it throws
    whenever the walks of the routes before that one all complete. *)
Theorem missing_parent_throws (registry : list Route.t) (r : Route.t)
    (s : string) :
  r ∈ registry →
  walk_reaches registry (Route.parent r) (PStr s) →
  s ≠ "" →
  (∀ p, p ∈ registry → Route.path p ≠ s) →
  (∃ n, ∀ fuel, (n ≤ fuel)%nat →
     _getPath fuel (Route.parent r) (Route.path r) (Route.level r) registry
     = Throws)
  ∧ (∀ fuel out, getAllPaths fuel registry ≠ Returns out)
  ∧ (∀ pre post,
       registry = (pre ++ r :: post)%list →
       (∀ r', r' ∈ pre → ∃ fuel,
          _getPath fuel (Route.parent r') (Route.path r') (Route.level r')
            registry
          ≠ OutOfFuel) →
       ∃ n, ∀ fuel, (n ≤ fuel)%nat → getAllPaths fuel registry = Throws).
Proof.
  intros Hin Hwalk Hs Hmiss.
  apply findParent_None in Hmiss.
  destruct (walk_throws registry _ s Hwalk Hs Hmiss) as [n Hn].
  assert (∀ fuel, (n ≤ fuel)%nat →
    _getPath fuel (Route.parent r) (Route.path r) (Route.level r) registry
    = Throws) as Hthrows.
  { intros fuel Hfuel. unfold _getPath. by apply Hn. }
  split; [by exists n|]. split.
  - intros fuel out. unfold getAllPaths. apply (array_map_stuck _ _ r Hin).
    intros o Ho. unfold _getPath in Ho.
    rewrite <- (loop_fuel_mono registry fuel (Nat.max fuel n)) in Ho
      by (lia || congruence).
    rewrite Hn in Ho by lia. done.
  - intros pre post Heq Hfinite.
    destruct (eventually_forall
      (λ fuel r',
         _getPath fuel (Route.parent r') (Route.path r') (Route.level r') registry
         ≠ OutOfFuel) pre) as [m Hm].
    { intros r' Hr'. destruct (Hfinite r' Hr') as [fuel Hfuel].
      exists fuel. by apply getPath_completes_from. }
    exists (Nat.max n m). intros fuel Hfuel. unfold getAllPaths.
    set (f := λ r0 : Route.t,
           _getPath fuel (Route.parent r0) (Route.path r0) (Route.level r0)
             registry).
    rewrite Heq. apply array_map_Throws_at.
    + intros r' Hr'. unfold f. apply (Hm fuel); [lia | done].
    + unfold f. apply Hthrows. lia.
Qed.

Lemma missing_parent_throws_witness :
  (∃ n, ∀ fuel, (n ≤ fuel)%nat → _getPath fuel (PStr "/a") "/b" 2 dangling = Throws)
  ∧ (∀ fuel out, getAllPaths fuel dangling ≠ Returns out)
  ∧ (∀ pre post,
       dangling = (pre ++ Route.mk "/b" (PStr "/a") 2 :: post)%list →
       (∀ r', r' ∈ pre → ∃ fuel,
          _getPath fuel (Route.parent r') (Route.path r') (Route.level r')
            dangling
          ≠ OutOfFuel) →
       ∃ n, ∀ fuel, (n ≤ fuel)%nat → getAllPaths fuel dangling = Throws).
Proof.
  apply (missing_parent_throws dangling (Route.mk "/b" (PStr "/a") 2) "/a").
  - unfold dangling. right. left.
  - simpl. apply walk_here.
  - discriminate.
  - intros p Hp. unfold dangling in Hp. elem_cases Hp; simpl; discriminate.
Defined.


(** ** The guard of the loop *)

(** The guard [while (currentParent)] as it runs: a reference that is a
    non-empty string is looked up, and the outcome is that of the lookup;
    the call returns at once on a reference that is null, absent or the
    empty string. *)
Lemma walk_guard (fuel : nat) (parent : parent_ref) (path : string)
    (level : Z) (registry : list Route.t) :
  ((∃ s, parent = PStr s ∧ s ≠ "") →
     _getPath 0 parent path level registry = OutOfFuel
     ∧ _getPath (S fuel) parent path level registry
       = match _findParent registry parent with
         | None => Throws
         | Some p =>
             _getPath_loop fuel registry (Route.parent p)
               (_createRoute (Route.path p) path) (Z.max level (Route.level p))
         end)
  ∧ (parent = PNull ∨ parent = PUndefined ∨ parent = PStr "" →
     _getPath fuel parent path level registry
     = Returns (Resolved.mk path level))
  ∧ (_getPath 0 parent path level registry = Returns (Resolved.mk path level)
     ↔ parent = PNull ∨ parent = PUndefined ∨ parent = PStr "").
Proof.
  unfold _getPath. split; [|split].
  - intros Ht. apply truthy_true in Ht. split; [by apply loop_no_fuel|].
    simpl. by rewrite Ht.
  - intros Hf. apply truthy_false in Hf. by apply loop_falsy.
  - rewrite <- truthy_false. simpl. destruct (truthy parent); [split; done|done].
Qed.

Lemma walk_guard_examples :
  (_getPath 0 (PStr "/a") "/b" 2 dangling = OutOfFuel
   ∧ _getPath 1 (PStr "/a") "/b" 2 dangling = Throws)
  ∧ _getPath 0 (PStr "") "/a" 1 empty_named = Returns (Resolved.mk "/a" 1).
Proof.
  split.
  - apply (proj1 (walk_guard 0 (PStr "/a") "/b" 2 dangling)).
    exists "/a". split; [reflexivity | discriminate].
  - apply (proj1 (proj2 (walk_guard 0 (PStr "") "/a" 1 empty_named))).
    right. right. reflexivity.
Qed.

(** C9.  The code at a registry on which it misses the claim: in
    [empty_named] the route ["/a"] has the string [""] as parent, which
    [_findParent] resolves to the route of level 9, and the walk ends
    without any lookup, as if ["/a"] were a root. *)
Lemma empty_parent_not_looked_up :
  _findParent empty_named (PStr "") = Some (Route.mk "" PNull 9)
  ∧ (∀ fuel, _getPath fuel (PStr "") "/a" 1 empty_named
             = Returns (Resolved.mk "/a" 1))
  ∧ (∀ fuel, _getPath_loop fuel empty_named PNull (_createRoute "" "/a") (Z.max 1 9)
             = Returns (Resolved.mk "/a" 9))
  ∧ ∀ fuel, _getPath (S fuel) (PStr "") "/a" 1 empty_named
            ≠ match _findParent empty_named (PStr "") with
              | None => Throws
              | Some p =>
                  _getPath_loop fuel empty_named (Route.parent p)
                    (_createRoute (Route.path p) "/a") (Z.max 1 (Route.level p))
              end.
Proof.
  split; [reflexivity|]. split; [by intros []|]. split; [by intros []|].
  intros fuel. simpl. by destruct fuel.
Qed.


(** * Further properties of the code *)

(** ** First match *)

Lemma array_find_first {A} (f : A → bool) (l : list A) (x : A) :
  array_find f l = Some x
  ↔ ∃ pre post, l = (pre ++ x :: post)%list ∧ f x = true
                ∧ ∀ y, y ∈ pre → f y = false.
Proof.
  split.
  - induction l as [|y l IH]; simpl; [done|].
    destruct (f y) eqn:Hy.
    + intros [= ->]. exists [], l. split; [done|]. split; [done|].
      intros z Hz. inversion Hz.
    + intros H. destruct (IH H) as (pre & post & -> & Hx & Hpre).
      exists (y :: pre), post. split; [done|]. split; [done|].
      intros z Hz. apply elem_of_cons in Hz as [-> | Hz]; auto.
  - intros (pre & post & -> & Hx & Hpre).
    induction pre as [|y pre IH]; simpl.
    + by rewrite Hx.
    + rewrite (Hpre y) by left. apply IH. intros z Hz. apply Hpre. by right.
Qed.

Lemma array_find_filter {A} (f g : A → bool) (l : list A) :
  (∀ x, x ∈ l → g x = true → f x = true) →
  array_find g (array_filter f l) = array_find g l.
Proof.
  induction l as [|y l IH]; intros H; simpl; [done|].
  assert (array_find g (array_filter f l) = array_find g l) as IH'.
  { apply IH. intros x Hx. apply H. by right. }
  destruct (f y) eqn:Hf; simpl.
  - by rewrite IH'.
  - destruct (g y) eqn:Hg; [|done].
    rewrite (H y) in Hf; [done | left | done].
Qed.

Lemma array_filter_true {A} (f : A → bool) (l : list A) :
  (∀ x, x ∈ l → f x = true) → array_filter f l = l.
Proof.
  induction l as [|y l IH]; intros H; simpl; [done|].
  rewrite (H y) by left. f_equal. apply IH. intros x Hx. apply H. by right.
Qed.

Lemma array_filter_elem {A} (f : A → bool) (l : list A) (x : A) :
  x ∈ array_filter f l ↔ x ∈ l ∧ f x = true.
Proof. rewrite array_filter_spec, list_elem_of_filter. tauto. Qed.

Lemma array_filter_sublist_mono {A} (f g : A → bool) (l : list A) :
  (∀ x, x ∈ l → f x = true → g x = true) →
  sublist (array_filter f l) (array_filter g l).
Proof.
  induction l as [|y l IH]; intros H; simpl; [constructor|].
  assert (sublist (array_filter f l) (array_filter g l)) as IH'.
  { apply IH. intros x Hx. apply H. by right. }
  destruct (f y) eqn:Hf.
  - rewrite (H y) by (left || done). by constructor.
  - destruct (g y); [by constructor | done].
Qed.

Lemma accessGranted_bounds access level :
  _accessGranted (JNum access) level = true ↔ 0 ≤ access ≤ level.
Proof.
  rewrite accessGranted_num, andb_true_iff, Z.gtb_ltb, Z.geb_leb.
  rewrite Z.ltb_lt, Z.leb_le. lia.
Qed.

(** X1.  [hasAccess] decides on the first route of the resolved sequence
    whose [absolutePath] is the path asked for: it is true exactly when
    there is such a route and its access lies between 0 and the level of
    the user.  Later routes of the same [absolutePath] play no part. *)
Theorem hasAccess_first_match (user : User.t) (path : string)
    (paths : list Resolved.t) :
  hasAccess user path paths = true
  ↔ ∃ pre r post,
      paths = (pre ++ r :: post)%list
      ∧ (∀ q, q ∈ pre → Resolved.absolutePath q ≠ path)
      ∧ Resolved.absolutePath r = path
      ∧ 0 ≤ Resolved.access r ≤ User.level user.
Proof.
  destruct (array_find (λ r, String.eqb (Resolved.absolutePath r) path) paths)
    as [r|] eqn:Hfind.
  - rewrite (hasAccess_found _ _ _ _ Hfind), accessGranted_bounds.
    apply array_find_first in Hfind as (pre & post & Heq & Hr & Hpre).
    apply String.eqb_eq in Hr. split.
    + intros Hb. exists pre, r, post. split; [done|]. split; [|done].
      intros q Hq. apply String.eqb_neq. by apply Hpre.
    + intros (pre' & r' & post' & Heq' & Hpre' & Hr' & Hb).
      assert (array_find (λ r, String.eqb (Resolved.absolutePath r) path) paths
              = Some r') as Hfind'.
      { apply array_find_first. exists pre', post'. split; [done|].
        split; [by apply String.eqb_eq|].
        intros q Hq. apply String.eqb_neq. by apply Hpre'. }
      assert (array_find (λ r, String.eqb (Resolved.absolutePath r) path) paths
              = Some r) as Hfind.
      { apply array_find_first. exists pre, post. split; [done|].
        split; [by apply String.eqb_eq | done]. }
      congruence.
  - rewrite (hasAccess_not_found _ _ _ Hfind), accessGranted_undefined.
    split; [done|]. intros (pre & r & post & -> & _ & Hr & _).
    rewrite array_find_None in Hfind.
    specialize (Hfind r). rewrite String.eqb_neq in Hfind.
    exfalso. apply Hfind; [|done]. apply elem_of_app. right. left.
Qed.

(** X2.  Filtering keeps every access decision: asking [hasAccess] against
    the list [getUserPaths] returned gives the answer it gave against the
    full list, for every path; hence filtering a second time changes
    nothing. *)
Theorem getUserPaths_stable (user : User.t) (paths : list Resolved.t) :
  (∀ path, hasAccess user path (getUserPaths user paths)
           = hasAccess user path paths)
  ∧ getUserPaths user (getUserPaths user paths) = getUserPaths user paths.
Proof.
  assert (∀ path, hasAccess user path (getUserPaths user paths)
                  = hasAccess user path paths) as Hsame.
  { intros path. destruct (hasAccess user path paths) eqn:Hacc.
    - unfold hasAccess, getUserPaths in *.
      rewrite array_find_filter; [done|].
      intros x _ Hx. apply String.eqb_eq in Hx. by rewrite Hx.
    - unfold hasAccess at 1.
      replace (array_find (λ r, String.eqb (Resolved.absolutePath r) path)
                 (getUserPaths user paths)) with (@None Resolved.t); [done|].
      symmetry. apply array_find_None. intros x Hx.
      apply array_filter_elem in Hx as [_ Hx].
      apply String.eqb_neq. intros Heq. congruence. }
  split; [done|].
  unfold getUserPaths at 1. apply array_filter_true.
  intros r Hr. rewrite Hsame. by apply array_filter_elem in Hr as [_ Hr].
Qed.

(** X3.  [getUserPaths] grows with the level of the user: the routes
    listed for a user are, in order, among those listed for any user of a
    level at least as high. *)
Theorem getUserPaths_monotone (u1 u2 : User.t) (paths : list Resolved.t) :
  User.level u1 ≤ User.level u2 →
  sublist (getUserPaths u1 paths) (getUserPaths u2 paths).
Proof.
  intros Hle. unfold getUserPaths. apply array_filter_sublist_mono.
  intros r _.
  destruct (array_find
    (λ q, String.eqb (Resolved.absolutePath q) (Resolved.absolutePath r)) paths)
    as [m|] eqn:Hfind.
  - rewrite !(hasAccess_found _ _ _ _ Hfind), !accessGranted_bounds. lia.
  - by rewrite !(hasAccess_not_found _ _ _ Hfind), !accessGranted_undefined.
Qed.

Lemma getUserPaths_monotone_witness :
  sublist (getUserPaths bob scenario2_resolved)
    (getUserPaths (User.mk "erin" 8) scenario2_resolved).
Proof.
  apply (getUserPaths_monotone bob (User.mk "erin" 8) scenario2_resolved).
  simpl. lia.
Defined.

(** X4.  When no two resolved routes share an [absolutePath],
    [getUserPaths] lists exactly the routes whose own access lies between 0
    and the level of the user. *)
Theorem getUserPaths_unique (user : User.t) (paths : list Resolved.t)
    (r : Resolved.t) :
  unique_absolutePaths paths →
  r ∈ getUserPaths user paths
  ↔ r ∈ paths ∧ 0 ≤ Resolved.access r ≤ User.level user.
Proof.
  intros Huniq. unfold getUserPaths. rewrite array_filter_elem.
  split; intros [Hin H]; (split; [done|]).
  - destruct (array_find
      (λ q, String.eqb (Resolved.absolutePath q) (Resolved.absolutePath r)) paths)
      as [m|] eqn:Hfind.
    + rewrite (hasAccess_found _ _ _ _ Hfind), accessGranted_bounds in H.
      apply array_find_Some in Hfind as [Hm Heq]. apply String.eqb_eq in Heq.
      by rewrite <- (Huniq m r Hm Hin Heq).
    + by rewrite (hasAccess_not_found _ _ _ Hfind) in H.
  - rewrite (hasAccess_found _ _ _ r); [by apply accessGranted_bounds|].
    apply array_find_unique; [done | apply String.eqb_refl |].
    intros q Hq Heq. apply String.eqb_eq in Heq. by apply Huniq.
Qed.

Lemma scenario2_resolved_unique : unique_absolutePaths scenario2_resolved.
Proof.
  intros p q Hp Hq Heq. unfold scenario2_resolved in *.
  elem_cases Hp; elem_cases Hq; done.
Qed.

Lemma getUserPaths_unique_witness :
  Resolved.mk "/" 0 ∈ getUserPaths bob scenario2_resolved
  ↔ Resolved.mk "/" 0 ∈ scenario2_resolved ∧ 0 ≤ 0 ≤ 3.
Proof.
  apply (getUserPaths_unique bob scenario2_resolved (Resolved.mk "/" 0)).
  exact scenario2_resolved_unique.
Defined.

(** ** What every completed resolution satisfies *)

Lemma string_append_assoc (a b c : string) :
  ((a ++ b) ++ c)%string = (a ++ b ++ c)%string.
Proof.
  induction a as [|x a IH]; [done|].
  change (String x ((a ++ b) ++ c)%string = String x (a ++ b ++ c)%string).
  by f_equal.
Qed.

Lemma string_append_empty_r (a : string) : (a ++ "")%string = a.
Proof.
  induction a as [|x a IH]; [done|].
  change (String x (a ++ "")%string = String x a). by f_equal.
Qed.

Lemma createRoute_prefix path abs :
  ∃ prefix, _createRoute path abs = (prefix ++ abs)%string.
Proof.
  unfold _createRoute. destruct (negb (String.eqb path "/")).
  - by exists path.
  - by exists "".
Qed.

(** The loop only raises [access] and only prepends to [absolutePath]. *)
Lemma loop_grows registry fuel c abs acc o :
  _getPath_loop fuel registry c abs acc = Returns o →
  acc ≤ Resolved.access o
  ∧ ∃ prefix, Resolved.absolutePath o = (prefix ++ abs)%string.
Proof.
  revert c abs acc. induction fuel as [|fuel IH]; intros c abs acc; simpl.
  - destruct (truthy c); [done|]. intros [= <-]. simpl.
    split; [lia | by exists ""].
  - destruct (truthy c).
    + destruct (_findParent registry c) as [p|]; [|done].
      intros H. apply IH in H as [Hacc [prefix Hprefix]]. split; [lia|].
      destruct (createRoute_prefix (Route.path p) abs) as [q Hq].
      exists (prefix ++ q)%string. by rewrite Hprefix, Hq, string_append_assoc.
    + intros [= <-]. simpl. split; [lia | by exists ""].
Qed.

(** X5.  Whatever the registry (duplicate paths included), when
    [getAllPaths] returns, the resolved route at each position has an
    access at least the level of the route at that position and an
    [absolutePath] that ends with its path. *)
Theorem getAllPaths_grows (fuel : nat) (registry : list Route.t)
    (out : list Resolved.t) :
  getAllPaths fuel registry = Returns out →
  Forall2
    (λ r o,
       Route.level r ≤ Resolved.access o
       ∧ ∃ prefix, Resolved.absolutePath o = (prefix ++ Route.path r)%string)
    registry out.
Proof.
  unfold getAllPaths. rewrite array_map_Returns.
  intros H. eapply Forall2_impl; [exact H|].
  intros r o Hr. unfold _getPath in Hr. by apply loop_grows in Hr.
Qed.

Lemma getAllPaths_grows_witness :
  Forall2
    (λ r o,
       Route.level r ≤ Resolved.access o
       ∧ ∃ prefix, Resolved.absolutePath o = (prefix ++ Route.path r)%string)
    scenario2 scenario2_resolved.
Proof.
  apply (getAllPaths_grows 2 scenario2 scenario2_resolved). reflexivity.
Defined.

(** Two runs of the loop from the same reference differ only by what they
    started with. *)
Lemma loop_access_shift registry fuel c abs1 acc1 abs2 acc2 o1 :
  _getPath_loop fuel registry c abs1 acc1 = Returns o1 →
  ∃ o2, _getPath_loop fuel registry c abs2 acc2 = Returns o2
        ∧ Z.max acc2 (Resolved.access o1) = Z.max acc1 (Resolved.access o2).
Proof.
  revert c abs1 acc1 abs2 acc2.
  induction fuel as [|fuel IH]; intros c abs1 acc1 abs2 acc2; simpl.
  - destruct (truthy c); [done|]. intros [= <-]. eexists. split; [done|].
    simpl. lia.
  - destruct (truthy c).
    + destruct (_findParent registry c) as [p|]; [|done].
      intros H1.
      destruct (IH _ _ _ (_createRoute (Route.path p) abs2)
                  (Z.max acc2 (Route.level p)) H1) as (o2 & H2 & Hmax).
      exists o2. split; [done|].
      apply loop_grows in H1 as [H1 _]. apply loop_grows in H2 as [H2 _]. lia.
    + intros [= <-]. eexists. split; [done|]. simpl. lia.
Qed.

Lemma getPath_inherits registry fuel1 fuel2 c p path level o op :
  truthy c = true →
  _findParent registry c = Some p →
  _getPath fuel1 c path level registry = Returns o →
  _getPath fuel2 (Route.parent p) (Route.path p) (Route.level p) registry
  = Returns op →
  Resolved.access o = Z.max level (Resolved.access op).
Proof.
  unfold _getPath. intros Ht Hf Ho Hop.
  destruct fuel1 as [|fuel1]; [by rewrite loop_no_fuel in Ho|].
  rewrite (loop_step registry fuel1 c p) in Ho by done.
  rewrite <- (loop_fuel_mono registry fuel1 (Nat.max fuel1 fuel2)) in Ho
    by (lia || congruence).
  rewrite <- (loop_fuel_mono registry fuel2 (Nat.max fuel1 fuel2)) in Hop
    by (lia || congruence).
  destruct (loop_access_shift registry _ _ _ _ (Route.path p) (Route.level p)
              _ Ho) as (op' & Hop' & Hmax).
  rewrite Hop in Hop'. injection Hop' as <-.
  apply loop_grows in Ho as [Ho _]. apply loop_grows in Hop as [Hop _]. lia.
Qed.

(** X6.  Access is inherited one step at a time: when [getAllPaths]
    returns, the access of a route whose parent reference is a non-empty
    string that finds the route [p] is the larger of its own level and the
    access resolved for [p]; in particular it is never below the access of
    [p]. *)
Theorem getAllPaths_inherits (fuel : nat) (registry : list Route.t)
    (out : list Resolved.t) (i j : nat) (r p : Route.t) (o op : Resolved.t) :
  getAllPaths fuel registry = Returns out →
  registry !! i = Some r → out !! i = Some o →
  registry !! j = Some p → out !! j = Some op →
  truthy (Route.parent r) = true →
  _findParent registry (Route.parent r) = Some p →
  Resolved.access o = Z.max (Route.level r) (Resolved.access op)
  ∧ Resolved.access op ≤ Resolved.access o.
Proof.
  unfold getAllPaths. rewrite array_map_Returns.
  intros Hall Hr Ho Hp Hop Ht Hf.
  pose proof (Forall2_lookup_lr _ _ _ _ _ _ Hall Hr Ho) as Hrun.
  pose proof (Forall2_lookup_lr _ _ _ _ _ _ Hall Hp Hop) as Hprun.
  simpl in Hrun, Hprun.
  pose proof (getPath_inherits _ _ _ _ _ _ _ _ _ Ht Hf Hrun Hprun) as Heq.
  split; [done | lia].
Qed.

Lemma getAllPaths_inherits_witness :
  5 = Z.max 2 5 ∧ 5 ≤ 5.
Proof.
  apply (getAllPaths_inherits 2 scenario2 scenario2_resolved 2 1
           (Route.mk "/users" (PStr "/admin") 2) (Route.mk "/admin" (PStr "/") 5)
           (Resolved.mk "/admin/users" 5) (Resolved.mk "/admin" 5));
    reflexivity.
Defined.

(** ** The absolute path in closed form *)

Lemma join_snoc (l : list string) (s : string) :
  join (l ++ [s]) = (join l ++ s)%string.
Proof.
  induction l as [|x l IH]; simpl.
  - apply string_append_empty_r.
  - by rewrite IH, string_append_assoc.
Qed.

Lemma compose_path_join anc abs :
  compose_path anc abs = (join (segments anc) ++ abs)%string.
Proof.
  revert abs. induction anc as [|p anc IH]; intros abs; [done|].
  change (compose_path (p :: anc) abs)
    with (compose_path anc (_createRoute (Route.path p) abs)).
  rewrite IH, createRoute_spec. unfold segments. simpl map.
  rewrite filter_cons. destruct (decide (Route.path p = "/")) as [Heq | Hne].
  - by rewrite decide_False by (intros H; by apply H).
  - rewrite decide_True by done. simpl rev.
    by rewrite join_snoc, string_append_assoc.
Qed.

(** Without empty-string references the chain of the specification is the
    chain the loop walks. *)
Lemma spec_ancestors_walk_same registry c anc :
  no_empty_parent registry →
  spec_ancestors registry c anc →
  c ≠ PStr "" →
  walk_ancestors registry c anc.
Proof.
  intros Hnonempty. induction 1 as [c Hc | s p anc Hin Hpath Hanc IH]; intros Hne.
  - constructor. by left.
  - constructor; [congruence | done | done |]. apply IH. by apply Hnonempty.
Qed.

Lemma getPath_follows_spec registry r anc fuel :
  unique_paths registry →
  no_empty_parent registry →
  r ∈ registry →
  spec_ancestors registry (Route.parent r) anc →
  (length anc ≤ fuel)%nat →
  _getPath fuel (Route.parent r) (Route.path r) (Route.level r) registry
  = Returns (Resolved.mk (compose_path anc (Route.path r))
               (compose_access anc (Route.level r))).
Proof.
  intros Hunique Hnonempty Hin Hanc Hfuel. unfold _getPath.
  replace fuel with (length anc + (fuel - length anc))%nat by lia.
  apply loop_follows_walk_ancestors; [done|].
  apply spec_ancestors_walk_same; [done | done | by apply Hnonempty].
Qed.

(** X7.  On a well-formed acyclic registry none of whose parent references
    is the empty string, [getAllPaths] returns, given enough fuel, and the
    [absolutePath] of each resolved route is the concatenation, root first,
    of the paths of its ancestors other than ["/"], followed by its own
    path; nothing is inserted between the segments. *)
Theorem getAllPaths_absolutePath (registry : list Route.t) :
  well_formed registry →
  no_empty_parent registry →
  ∃ n, ∀ fuel, (n ≤ fuel)%nat →
    ∃ out,
      getAllPaths fuel registry = Returns out
      ∧ Forall2
          (λ r o, ∃ anc,
             spec_ancestors registry (Route.parent r) anc
             ∧ Resolved.absolutePath o
               = (join (segments anc) ++ Route.path r)%string)
          registry out.
Proof.
  intros [Hunique Hclosed] Hnonempty.
  destruct (eventually_forall
    (λ fuel r, ∃ o,
       _getPath fuel (Route.parent r) (Route.path r) (Route.level r) registry
       = Returns o
       ∧ ∃ anc, spec_ancestors registry (Route.parent r) anc
                ∧ Resolved.absolutePath o
                  = (join (segments anc) ++ Route.path r)%string)
    registry) as [n Hn].
  { intros r Hr. destruct (Hclosed r Hr) as [anc Hanc].
    exists (length anc). intros fuel Hfuel. eexists. split.
    - by apply (getPath_follows_spec registry r anc).
    - exists anc. split; [done|]. simpl. apply compose_path_join. }
  exists n. intros fuel Hfuel.
  exact (array_map_total _ _ registry (Hn fuel Hfuel)).
Qed.

Lemma scenario2_no_empty_parent : no_empty_parent scenario2.
Proof. intros r Hr. unfold scenario2 in Hr. elem_cases Hr; done. Qed.

Lemma getAllPaths_absolutePath_witness :
  ∃ n, ∀ fuel, (n ≤ fuel)%nat →
    ∃ out,
      getAllPaths fuel scenario2 = Returns out
      ∧ Forall2
          (λ r o, ∃ anc,
             spec_ancestors scenario2 (Route.parent r) anc
             ∧ Resolved.absolutePath o
               = (join (segments anc) ++ Route.path r)%string)
          scenario2 out.
Proof.
  apply (getAllPaths_absolutePath scenario2).
  - exact scenario2_well_formed.
  - exact scenario2_no_empty_parent.
Defined.

(** ** The maximum over the ancestors *)

(** X15.  On a well-formed acyclic registry none of whose parent
    references is the empty string, [getAllPaths] returns, given enough
    fuel, one resolved route per route of the registry, in the order of the
    registry, and the [access] of each is the maximum of the levels of the
    route and of all its ancestors. *)
Theorem getAllPaths_max_of_ancestors (registry : list Route.t) :
  well_formed registry →
  no_empty_parent registry →
  ∃ n, ∀ fuel, (n ≤ fuel)%nat →
    ∃ out,
      getAllPaths fuel registry = Returns out
      ∧ length out = length registry
      ∧ Forall2 (spec_resolves registry) registry out.
Proof.
  intros [Hunique Hclosed] Hnonempty.
  destruct (eventually_forall
    (λ fuel r, ∃ o,
       _getPath fuel (Route.parent r) (Route.path r) (Route.level r) registry
       = Returns o ∧ spec_resolves registry r o) registry) as [n Hn].
  { intros r Hr. destruct (Hclosed r Hr) as [anc Hanc].
    exists (length anc). intros fuel Hfuel. eexists. split.
    - by apply (getPath_follows_spec registry r anc).
    - exists anc. split; [done|]. simpl.
      apply (compose_access_is_maximum anc _ [Route.level r]).
      split; [apply list_elem_of_singleton; done|].
      intros x Hx. apply list_elem_of_singleton in Hx. lia. }
  exists n. intros fuel Hfuel.
  destruct (array_map_total _ _ registry (Hn fuel Hfuel)) as (out & Hout & Hall).
  exists out. split; [done|]. split; [|done].
  symmetry. by eapply Forall2_length.
Qed.

Lemma getAllPaths_max_of_ancestors_witness :
  ∃ n, ∀ fuel, (n ≤ fuel)%nat →
    ∃ out,
      getAllPaths fuel scenario2 = Returns out
      ∧ length out = length scenario2
      ∧ Forall2 (spec_resolves scenario2) scenario2 out.
Proof.
  apply (getAllPaths_max_of_ancestors scenario2).
  - exact scenario2_well_formed.
  - exact scenario2_no_empty_parent.
Defined.

(** ** Cyclic chains *)

Section cycles.
Variable registry : list Route.t.
Implicit Types (c : parent_ref) (abs : string) (acc : Z) (fuel : nat).

Lemma walk_reaches_trans c1 c2 c3 :
  walk_reaches registry c1 c2 → walk_reaches registry c2 c3 →
  walk_reaches registry c1 c3.
Proof.
  induction 1 as [c | c p c' Ht Hf _ IH]; [done|].
  intros H. eapply walk_step; [done | done | by apply IH].
Qed.

Lemma walk_plus_reaches c c' :
  walk_plus registry c c' → walk_reaches registry c c'.
Proof. intros [c0 p c0' Ht Hf H]. by eapply walk_step. Qed.

(** A cycle can be entered at each of its points. *)
Lemma walk_plus_rotate c p :
  walk_plus registry c c →
  _findParent registry c = Some p →
  walk_plus registry (Route.parent p) (Route.parent p).
Proof.
  intros Hcycle Hf.
  inversion Hcycle as [c0 p' c0' Ht Hf' Hback]; subst.
  assert (p' = p) as -> by congruence.
  inversion Hback as [c0 | c0 q c0' Ht0 Hf0 Hrest]; subst.
  - done.
  - econstructor; [done | done |].
    eapply walk_reaches_trans; [exact Hrest|].
    eapply walk_step; [exact Ht | exact Hf | apply walk_here].
Qed.

Lemma loop_on_cycle fuel c abs acc :
  walk_plus registry c c →
  _getPath_loop fuel registry c abs acc = OutOfFuel.
Proof.
  revert c abs acc. induction fuel as [|fuel IH]; intros c abs acc Hcycle.
  - inversion Hcycle; subst. by apply loop_no_fuel.
  - inversion Hcycle as [c0 p c0' Ht Hf Hback]; subst.
    rewrite (loop_step registry fuel c p) by done.
    apply IH. by apply walk_plus_rotate with c.
Qed.

Lemma loop_into_cycle fuel c0 c abs acc :
  walk_reaches registry c0 c →
  walk_plus registry c c →
  _getPath_loop fuel registry c0 abs acc = OutOfFuel.
Proof.
  intros Hreach Hcycle. revert fuel abs acc.
  induction Hreach as [c | c0 p c Ht Hf _ IH]; intros fuel abs acc.
  - by apply loop_on_cycle.
  - destruct fuel as [|fuel]; [by apply loop_no_fuel|].
    rewrite (loop_step registry fuel c0 p) by done. by apply IH.
Qed.
End cycles.

(** X8.  A cyclic parent chain is not detected and yields no result: when
    the walk of a route comes back to a reference it has already had,
    neither the resolution of that route nor [getAllPaths] returns
    normally, however long they run. *)
Theorem cyclic_chain_diverges (registry : list Route.t) (r : Route.t)
    (c : parent_ref) :
  r ∈ registry →
  walk_reaches registry (Route.parent r) c →
  walk_plus registry c c →
  (∀ fuel o,
     _getPath fuel (Route.parent r) (Route.path r) (Route.level r) registry
     ≠ Returns o)
  ∧ (∀ fuel out, getAllPaths fuel registry ≠ Returns out).
Proof.
  intros Hin Hreach Hcycle.
  assert (∀ fuel o,
    _getPath fuel (Route.parent r) (Route.path r) (Route.level r) registry
    ≠ Returns o) as Hrun.
  { intros fuel o. unfold _getPath.
    by rewrite (loop_into_cycle registry fuel _ c). }
  split; [done|].
  intros fuel out. unfold getAllPaths. apply (array_map_stuck _ _ r Hin).
  intros o. apply Hrun.
Qed.

Lemma cyclic_chain_diverges_witness :
  (∀ fuel o, _getPath fuel (PStr "/b") "/a" 1 cyclic ≠ Returns o)
  ∧ (∀ fuel out, getAllPaths fuel cyclic ≠ Returns out).
Proof.
  apply (cyclic_chain_diverges cyclic (Route.mk "/a" (PStr "/b") 1) (PStr "/b")).
  - unfold cyclic. left.
  - simpl. apply walk_here.
  - apply (walk_plus_intro cyclic (PStr "/b") (Route.mk "/b" (PStr "/a") 2));
      [reflexivity | reflexivity |].
    simpl. apply (walk_step cyclic (PStr "/a") (Route.mk "/a" (PStr "/b") 1));
      [reflexivity | reflexivity | apply walk_here].
Defined.

(** ** A bound on the number of iterations *)

Section bound.
Variable registry : list Route.t.
Implicit Types (c : parent_ref) (abs : string) (acc : Z) (fuel : nat).

Lemma completed_walk_finds fuel c abs acc :
  _getPath_loop fuel registry c abs acc ≠ OutOfFuel →
  ∃ ps c', walk_finds registry c ps c' ∧ stops registry c'.
Proof.
  revert c abs acc. induction fuel as [|fuel IH]; intros c abs acc Hrun.
  - exists [], c. split; [constructor|]. left.
    destruct (truthy c) eqn:Ht; [|done]. by rewrite loop_no_fuel in Hrun.
  - destruct (truthy c) eqn:Ht.
    + destruct (_findParent registry c) as [p|] eqn:Hf.
      * rewrite (loop_step registry fuel c p) in Hrun by done.
        destruct (IH _ _ _ Hrun) as (ps & c' & Hwalk & Hstop).
        exists (p :: ps), c'. split; [by constructor | done].
      * exists [], c. split; [constructor | by right].
    + exists [], c. split; [constructor | by left].
Qed.

Lemma walk_finds_completes c ps c' abs acc :
  walk_finds registry c ps c' → stops registry c' →
  _getPath_loop (S (length ps)) registry c abs acc ≠ OutOfFuel.
Proof.
  intros Hwalk Hstop. revert abs acc.
  induction Hwalk as [c | c p ps c' Ht Hf _ IH]; intros abs acc.
  - destruct (truthy c) eqn:Ht.
    + destruct Hstop as [Hstop | Hstop]; [congruence|].
      by rewrite loop_missing.
    + by rewrite loop_falsy.
  - simpl length. rewrite (loop_step registry _ c p) by done. by apply IH.
Qed.

Lemma walk_finds_in c ps c' p :
  walk_finds registry c ps c' → p ∈ ps → p ∈ registry.
Proof.
  induction 1 as [c | c q ps c' Ht Hf _ IH]; intros Hp; [inversion Hp|].
  apply elem_of_cons in Hp as [-> | Hp]; [|by apply IH].
  by apply findParent_Some in Hf as [Hin _].
Qed.

(** A route found later in the walk was reached from where the walk began. *)
Lemma walk_finds_reaches c ps c' p :
  walk_finds registry c ps c' → p ∈ ps →
  walk_reaches registry c (PStr (Route.path p)).
Proof.
  induction 1 as [c | c q ps c' Ht Hf _ IH]; intros Hp; [inversion Hp|].
  apply elem_of_cons in Hp as [-> | Hp].
  - apply findParent_Some in Hf as [_ ->]. apply walk_here.
  - eapply walk_step; [done | done | by apply IH].
Qed.

(** A walk that ends finds no route twice. *)
Lemma walk_finds_NoDup c ps c' :
  walk_finds registry c ps c' → stops registry c' → NoDup ps.
Proof.
  intros Hwalk Hstop.
  induction Hwalk as [c | c p ps c' Ht Hf Hwalk IH]; [constructor|].
  apply NoDup_cons. split; [|by apply IH].
  intros Hp.
  pose proof (walk_finds_reaches _ _ _ _ Hwalk Hp) as Hback.
  pose proof Hf as Hc. apply findParent_Some in Hc as [_ Hc].
  rewrite <- Hc in Hback.
  assert (walk_plus registry c c) as Hcycle by (by econstructor).
  apply (walk_finds_completes c (p :: ps) c' "" 0); [by constructor | done |].
  by apply loop_on_cycle.
Qed.

Lemma completed_within_registry fuel c abs acc :
  _getPath_loop fuel registry c abs acc ≠ OutOfFuel →
  _getPath_loop (S (length registry)) registry c abs acc
  = _getPath_loop fuel registry c abs acc.
Proof.
  intros Hrun.
  destruct (completed_walk_finds _ _ _ _ Hrun) as (ps & c' & Hwalk & Hstop).
  assert (length ps ≤ length registry)%nat as Hlen.
  { apply submseteq_length, NoDup_submseteq.
    - by eapply walk_finds_NoDup.
    - intros p. by eapply walk_finds_in. }
  pose proof (walk_finds_completes _ _ _ abs acc Hwalk Hstop) as Hshort.
  rewrite <- (loop_fuel_mono registry (S (length ps)) (S (length registry)))
    in Hshort by (lia || done).
  by apply loop_deterministic.
Qed.
End bound.

Lemma getAllPaths_completed_within (fuel : nat) (registry : list Route.t) :
  getAllPaths fuel registry ≠ OutOfFuel →
  getAllPaths (S (length registry)) registry = getAllPaths fuel registry.
Proof.
  unfold getAllPaths. intros Hrun.
  apply array_map_ext_completed; [|done].
  intros r Hr. unfold _getPath in *. by apply completed_within_registry.
Qed.

(** X9.  A run of [getAllPaths] that returns a result, or that throws on a
    missing parent, does so within [S (length registry)] iterations of the
    loop for each route; when that many iterations do not complete the
    call, it never returns a result. *)
Theorem getAllPaths_bounded (fuel : nat) (registry : list Route.t) :
  (∀ out, getAllPaths fuel registry = Returns out →
          getAllPaths (S (length registry)) registry = Returns out)
  ∧ (getAllPaths fuel registry = Throws →
     getAllPaths (S (length registry)) registry = Throws)
  ∧ (getAllPaths (S (length registry)) registry = OutOfFuel →
     ∀ out, getAllPaths fuel registry ≠ Returns out).
Proof.
  split; [|split].
  - intros out Hrun. rewrite <- Hrun.
    apply getAllPaths_completed_within. by rewrite Hrun.
  - intros Hrun. rewrite <- Hrun.
    apply getAllPaths_completed_within. by rewrite Hrun.
  - intros Hbound out Hrun.
    rewrite getAllPaths_completed_within with (fuel := fuel) in Hbound
      by (by rewrite Hrun).
    congruence.
Qed.

Lemma getAllPaths_bounded_witness :
  getAllPaths (S (length scenario2)) scenario2 = Returns scenario2_resolved
  ∧ getAllPaths (S (length dangling)) dangling = Throws
  ∧ ∀ out, getAllPaths 7 cyclic ≠ Returns out.
Proof.
  split; [|split].
  - apply (proj1 (getAllPaths_bounded 7 scenario2)). reflexivity.
  - apply (proj1 (proj2 (getAllPaths_bounded 7 dangling))). reflexivity.
  - apply (proj2 (proj2 (getAllPaths_bounded 7 cyclic))). reflexivity.
Defined.

(** ** Lookup of the parent *)

(** X10.  [_findParent] returns the first route of the registry whose path
    is the reference: with duplicate paths the earliest route is the
    parent, and the later ones are never found. *)
Theorem findParent_first_match (registry : list Route.t) (s : string)
    (p : Route.t) :
  _findParent registry (PStr s) = Some p
  ↔ ∃ pre post,
      registry = (pre ++ p :: post)%list
      ∧ Route.path p = s
      ∧ ∀ q, q ∈ pre → Route.path q ≠ s.
Proof.
  unfold _findParent. rewrite array_find_first. simpl.
  split; intros (pre & post & Heq & Hp & Hpre); exists pre, post;
    (split; [done|]).
  - split; [by apply String.eqb_eq|].
    intros q Hq. apply String.eqb_neq. by apply Hpre.
  - split; [by apply String.eqb_eq|].
    intros q Hq. apply String.eqb_neq. by apply Hpre.
Qed.

(** ** Where a throw comes from *)

Lemma array_map_Throws_inv {A B} (f : A → outcome B) (l : list A) :
  array_map f l = Throws → ∃ x, x ∈ l ∧ f x = Throws.
Proof.
  induction l as [|x l IH]; [done|]. rewrite array_map_cons.
  destruct (f x) as [y| |] eqn:Hx; [| |done].
  - destruct (array_map f l) as [ys| |]; [done| |done].
    intros _. destruct IH as (z & Hz & Hthrow); [done|].
    exists z. split; [by right | done].
  - intros _. exists x. split; [left | done].
Qed.

Lemma loop_Throws_inv registry fuel c abs acc :
  _getPath_loop fuel registry c abs acc = Throws →
  ∃ s, walk_reaches registry c (PStr s) ∧ s ≠ ""
       ∧ _findParent registry (PStr s) = None.
Proof.
  revert c abs acc. induction fuel as [|fuel IH]; intros c abs acc; simpl.
  - by destruct (truthy c).
  - destruct (truthy c) eqn:Ht; [|done].
    destruct (_findParent registry c) as [p|] eqn:Hf.
    + intros H. destruct (IH _ _ _ H) as (s & Hreach & Hs & Hnone).
      exists s. split; [|done]. by eapply walk_step.
    + intros _. apply truthy_true in Ht as (s & -> & Hs).
      exists s. split; [apply walk_here | done].
Qed.

(** X11.  The [TypeError] of the failed destructuring in [_getPath] has a
    missing parent as its only source: when [getAllPaths] ends with it, the
    walk of some route of the registry has reached a non-empty reference
    that is the path of no route. *)
Theorem getAllPaths_throws_only_on_missing (fuel : nat)
    (registry : list Route.t) :
  getAllPaths fuel registry = Throws →
  ∃ r s,
    r ∈ registry
    ∧ walk_reaches registry (Route.parent r) (PStr s)
    ∧ s ≠ ""
    ∧ ∀ p, p ∈ registry → Route.path p ≠ s.
Proof.
  unfold getAllPaths. intros H.
  apply array_map_Throws_inv in H as (r & Hr & Hthrow).
  unfold _getPath in Hthrow.
  apply loop_Throws_inv in Hthrow as (s & Hreach & Hs & Hnone).
  exists r, s. split; [done|]. split; [done|]. split; [done|].
  by apply findParent_None.
Qed.

Lemma getAllPaths_throws_only_on_missing_witness :
  ∃ r s,
    r ∈ dangling
    ∧ walk_reaches dangling (Route.parent r) (PStr s)
    ∧ s ≠ ""
    ∧ ∀ p, p ∈ dangling → Route.path p ≠ s.
Proof.
  apply (getAllPaths_throws_only_on_missing 1 dangling). reflexivity.
Defined.

(** ** From a granted route to its chain *)

(** X12.  Resolution and check together: on a registry with unique paths
    and no empty-string parent reference, when the resolved routes have
    distinct [absolutePath]s, a user to whom [hasAccess] grants the resolved
    path of a route has a level that is at least the level of that route
    and of every one of its ancestors. *)
Theorem granted_route_clears_chain (fuel : nat) (registry : list Route.t)
    (out : list Resolved.t) (i : nat) (r : Route.t) (o : Resolved.t)
    (user : User.t) :
  unique_paths registry →
  no_empty_parent registry →
  getAllPaths fuel registry = Returns out →
  unique_absolutePaths out →
  registry !! i = Some r →
  out !! i = Some o →
  hasAccess user (Resolved.absolutePath o) out = true →
  Route.level r ≤ User.level user
  ∧ ∀ anc p,
      spec_ancestors registry (Route.parent r) anc →
      p ∈ anc →
      Route.level p ≤ User.level user.
Proof.
  unfold getAllPaths. rewrite array_map_Returns.
  intros Hunique Hnonempty Hall Huniq Hr Ho Hacc.
  pose proof (Forall2_lookup_lr _ _ _ _ _ _ Hall Hr Ho) as Hrun.
  simpl in Hrun.
  assert (r ∈ registry) as Hrin by (apply list_elem_of_lookup; by exists i).
  assert (o ∈ out) as Hin by (apply list_elem_of_lookup; by exists i).
  assert (Resolved.access o ≤ User.level user) as Hle.
  { rewrite (hasAccess_found _ _ _ o) in Hacc.
    - apply accessGranted_bounds in Hacc. lia.
    - apply array_find_unique; [done | apply String.eqb_refl |].
      intros q Hq Heq. apply String.eqb_eq in Heq. by apply Huniq. }
  split.
  - unfold _getPath in Hrun. apply loop_grows in Hrun as [Hrun _]. lia.
  - intros anc p Hanc Hp.
    assert (length anc ≤ Nat.max fuel (length anc))%nat as Hfuel by lia.
    pose proof (getPath_follows_spec registry r anc (Nat.max fuel (length anc))
                  Hunique Hnonempty Hrin Hanc Hfuel) as Hspec.
    unfold _getPath in Hrun, Hspec.
    rewrite (loop_fuel_mono registry fuel (Nat.max fuel (length anc))) in Hspec
      by (lia || congruence).
    rewrite Hrun in Hspec. injection Hspec as ->.
    destruct (compose_access_is_maximum anc (Route.level r) [Route.level r])
      as [_ Hmax].
    { split; [apply list_elem_of_singleton; done|].
      intros x Hx. apply list_elem_of_singleton in Hx. lia. }
    specialize (Hmax (Route.level p)). simpl in Hle.
    assert (Route.level p ≤ compose_access anc (Route.level r)); [|lia].
    apply Hmax. apply elem_of_app. right.
    apply list_elem_of_fmap. by exists p.
Qed.

Lemma granted_route_clears_chain_witness :
  2 ≤ 5
  ∧ ∀ anc p,
      spec_ancestors scenario2 (PStr "/admin") anc →
      p ∈ anc →
      Route.level p ≤ 5.
Proof.
  apply (granted_route_clears_chain 2 scenario2 scenario2_resolved 2
           (Route.mk "/users" (PStr "/admin") 2) (Resolved.mk "/admin/users" 5)
           (User.mk "carol" 5)).
  - exact (proj1 scenario2_well_formed).
  - exact scenario2_no_empty_parent.
  - reflexivity.
  - exact scenario2_resolved_unique.
  - reflexivity.
  - reflexivity.
  - reflexivity.
Defined.

(** ** Order of the registry *)

Lemma unique_paths_perm registry registry' :
  registry ≡ₚ registry' → unique_paths registry → unique_paths registry'.
Proof.
  intros Hperm Huniq p q Hp Hq. apply Huniq; by rewrite Hperm.
Qed.

Lemma findParent_perm registry registry' c :
  unique_paths registry → registry ≡ₚ registry' →
  _findParent registry' c = _findParent registry c.
Proof.
  intros Huniq Hperm.
  destruct (_findParent registry c) as [p|] eqn:Hf.
  - apply findParent_Some in Hf as [Hin ->].
    apply findParent_unique; [by eapply unique_paths_perm|by rewrite <- Hperm].
  - unfold _findParent in *. rewrite array_find_None in *.
    intros x Hx. apply Hf. by rewrite Hperm.
Qed.

Lemma loop_perm registry registry' fuel c abs acc :
  unique_paths registry → registry ≡ₚ registry' →
  _getPath_loop fuel registry' c abs acc = _getPath_loop fuel registry c abs acc.
Proof.
  intros Huniq Hperm. revert c abs acc.
  induction fuel as [|fuel IH]; intros c abs acc; simpl; [done|].
  destruct (truthy c); [|done].
  rewrite (findParent_perm registry registry') by done.
  destruct (_findParent registry c); [apply IH | done].
Qed.

Lemma array_map_perm {A B} (f : A → outcome B) (l l' : list A) (out : list B) :
  l ≡ₚ l' → array_map f l = Returns out →
  ∃ out', array_map f l' = Returns out' ∧ out ≡ₚ out'.
Proof.
  intros Hperm. revert out.
  induction Hperm as [|x l l' _ IH|x y l|l1 l2 l3 _ IH1 _ IH2]; intros out.
  - intros [= <-]. by exists [].
  - rewrite !array_map_cons. destruct (f x) as [b| |]; [|done..].
    destruct (array_map f l) as [bs| |]; [|done..].
    intros [= <-]. destruct (IH bs eq_refl) as (bs' & -> & Hbs).
    exists (b :: bs'). split; [done | by constructor].
  - rewrite !array_map_cons.
    destruct (f y) as [b| |]; [|done..].
    destruct (f x) as [a| |]; [|done..].
    destruct (array_map f l) as [bs| |]; [|done..].
    intros [= <-]. exists (a :: b :: bs). split; [done | constructor].
  - intros H1. destruct (IH1 _ H1) as (out2 & H2 & Hp12).
    destruct (IH2 _ H2) as (out3 & H3 & Hp23).
    exists out3. split; [done | by etrans].
Qed.

(** X13.  The order of the registry does not matter when paths are
    unique: if [getAllPaths] returns on a registry, it returns on every
    reordering of it, with the same resolved routes reordered. *)
Theorem getAllPaths_order_irrelevant (fuel : nat)
    (registry registry' : list Route.t) (out : list Resolved.t) :
  unique_paths registry →
  registry ≡ₚ registry' →
  getAllPaths fuel registry = Returns out →
  ∃ out', getAllPaths fuel registry' = Returns out' ∧ out ≡ₚ out'.
Proof.
  intros Huniq Hperm Hrun. unfold getAllPaths in *.
  destruct (array_map_perm _ _ _ _ Hperm Hrun) as (out' & Hrun' & Hout).
  exists out'. split; [|done].
  rewrite <- Hrun'. apply array_map_ext_completed.
  - intros r _. unfold _getPath. by apply loop_perm.
  - by rewrite Hrun'.
Qed.

Lemma getAllPaths_order_irrelevant_witness :
  ∃ out',
    getAllPaths 2 [ Route.mk "/admin" (PStr "/") 5;
                    Route.mk "/" PNull 0;
                    Route.mk "/users" (PStr "/admin") 2 ] = Returns out'
    ∧ scenario2_resolved ≡ₚ out'.
Proof.
  apply (getAllPaths_order_irrelevant 2 scenario2).
  - exact (proj1 scenario2_well_formed).
  - unfold scenario2. apply perm_swap.
  - reflexivity.
Defined.

(** ** Users of negative level *)

(** X14.  A user whose level is negative is granted nothing: [hasAccess]
    is false for every path and every resolved sequence, and
    [getUserPaths] is empty. *)
Theorem negative_level_denied (user : User.t) (paths : list Resolved.t) :
  User.level user < 0 →
  (∀ path, hasAccess user path paths = false)
  ∧ getUserPaths user paths = [].
Proof.
  intros Hneg.
  assert (∀ path l, hasAccess user path l = false) as Hdenied.
  { intros path l.
    destruct (array_find (λ r, String.eqb (Resolved.absolutePath r) path) l)
      as [r|] eqn:Hfind.
    - rewrite (hasAccess_found _ _ _ _ Hfind).
      apply not_true_is_false. rewrite accessGranted_bounds. lia.
    - by rewrite (hasAccess_not_found _ _ _ Hfind). }
  split; [intros path; apply Hdenied|].
  unfold getUserPaths. generalize paths at 1.
  induction paths as [|r l IH]; intros whole; simpl; [done|].
  by rewrite Hdenied.
Qed.

Lemma negative_level_denied_witness :
  (∀ path, hasAccess (User.mk "guest" (-2)) path scenario2_resolved = false)
  ∧ getUserPaths (User.mk "guest" (-2)) scenario2_resolved = [].
Proof.
  apply (negative_level_denied (User.mk "guest" (-2)) scenario2_resolved).
  simpl. lia.
Defined.
